(** * Password generator: the sampling policy of [generate_password]

    A shallow embedding of [generate_password] (TASK3.py) together with the
    two library operations it relies on, [random.choice] and
    [random.shuffle].  Python [str] values are [string]s, lists of
    one-character strings are [list ascii], the [length] argument is an
    unbounded Python integer ([Z]) and [strength] is an arbitrary [str].
    The process-wide random source is threaded explicitly through a small
    state-and-exception monad.  The handler of the button,
    [on_generate_button_click], is embedded over the part of the form it
    reads and writes. *)

From Stdlib Require Import ZArith Lia Ascii.
From stdpp Require Import gmap strings list pretty.


(** ** Character sets *)

Definition ascii_uppercase : string := "ABCDEFGHIJKLMNOPQRSTUVWXYZ".
Definition ascii_lowercase : string := "abcdefghijklmnopqrstuvwxyz".
Definition digits : string := "0123456789".

(** [string.punctuation]; its first two characters, the exclamation mark
    and the double quote, are given by their codes 33 and 34. *)
Definition punctuation : string :=
  String (ascii_of_nat 33)
    (String (ascii_of_nat 34) "#$%&'()*+,-./:;<=>?@[\]^_`{|}~").

(** The module-level dictionary [CHAR_SETS]. *)
Definition CHAR_SETS : gmap string string :=
  <["uppercase"%string := ascii_uppercase]>
  (<["lowercase"%string := ascii_lowercase]>
  (<["digits"%string := digits]>
  (<["special_chars"%string := punctuation]> ∅))).

(** ** Outcomes, the random source and the monad *)

(** The exceptions the modelled operations can raise. *)
Inductive exn : Type :=
| IndexError
| KeyError.

(** A call either returns a value or raises. *)
Inductive outcome (A : Type) : Type :=
| Returns (a : A)
| Raises (e : exn).
Arguments Returns {A} a.
Arguments Raises {A} e.

(** The random source: an arbitrary tape of raw draws and the number of
    draws consumed so far.  [random.choice] and [random.shuffle] obtain
    every index from [_randbelow(n)], an integer below [n]; here it is the
    next raw draw reduced modulo [n], so that a tape holding the wanted
    samples produces them ([randbelow_any]). *)
Record rng : Type := mkRng { tape : nat → nat; pos : nat }.

Definition advance (k : nat) (r : rng) : rng :=
  {| tape := tape r; pos := pos r + k |}.

Definition M (A : Type) : Type := rng → outcome A * rng.

Definition ret {A} (a : A) : M A := λ r, (Returns a, r).
Definition raise {A} (e : exn) : M A := λ r, (Raises e, r).
Definition bind {A B} (f : A → M B) (m : M A) : M B :=
  λ r, match m r with
       | (Returns a, r') => f a r'
       | (Raises e, r') => (Raises e, r')
       end.

(** The monad is registered with stdpp so that [x ← m; k] is sequencing. *)
#[export] Instance M_ret : MRet M := @ret.
#[export] Instance M_bind : MBind M := @bind.

(** [_randbelow(n)]: one draw, reduced below [n]. *)
Definition randbelow (n : nat) : M nat :=
  λ r, (Returns (tape r (pos r) `mod` n), advance 1 r).

(** [d[key]] on a dictionary. *)
Definition getitem (d : gmap string string) (key : string) : M string :=
  match d !! key with
  | Some v => ret v
  | None => raise KeyError
  end.

(** [random.choice(seq)]. *)
Definition choice (seq : list ascii) : M ascii :=
  if decide (length seq = 0) then raise IndexError
  else
    j ← randbelow (length seq);
    match seq !! j with
    | Some c => ret c
    | None => raise IndexError
    end.

(** [x[i], x[j] = x[j], x[i]]: both reads happen before the two writes. *)
Definition swap (x : list ascii) (i j : nat) : M (list ascii) :=
  match x !! j, x !! i with
  | Some xj, Some xi => ret (<[j := xi]> (<[i := xj]> x))
  | _, _ => raise IndexError
  end.

(** The loop of [random.shuffle]: [i] runs down from its start value to 1. *)
Fixpoint shuffle_loop (i : nat) (x : list ascii) : M (list ascii) :=
  match i with
  | 0 => ret x
  | S i' =>
      j ← randbelow (i + 1);
      x' ← swap x i j;
      shuffle_loop i' x'
  end.

(** [random.shuffle(x)]: [for i in reversed(range(1, len(x)))]. *)
Definition shuffle (x : list ascii) : M (list ascii) :=
  shuffle_loop (length x - 1) x.

(** [[random.choice(all_chars) for _ in range(n)]]. *)
Fixpoint choices (n : nat) (all_chars : list ascii) : M (list ascii) :=
  match n with
  | 0 => ret []
  | S n' =>
      c ← choice all_chars;
      cs ← choices n' all_chars;
      ret (c :: cs)
  end.

(** ** The generator *)

Definition error_message : string :=
  "Error: Length too short for selected strength.".

(** [list(s)] and [str.join] on the empty separator. *)
Definition chars (s : string) : list ascii := String.list_ascii_of_string s.
Definition join (l : list ascii) : string := String.string_of_list_ascii l.

(** [random.choice(CHAR_SETS[key])]. *)
Definition choice_of (key : string) : M ascii :=
  s ← getitem CHAR_SETS key; choice (chars s).

(** The first half of [generate_password] (up to the length test): the
    pair [(all_chars, guaranteed_chars)] for the given [strength]. *)
Definition select_chars (strength : string) : M (list ascii * list ascii) :=
  let all_chars := [] in
  let guaranteed_chars := [] in
  up ← getitem CHAR_SETS "uppercase";
  let all_chars := all_chars ++ chars up in
  lo ← getitem CHAR_SETS "lowercase";
  let all_chars := all_chars ++ chars lo in
  if String.eqb strength "low" then
    ret (all_chars, guaranteed_chars)
  else if String.eqb strength "medium" then
    dg ← getitem CHAR_SETS "digits";
    let all_chars := all_chars ++ chars dg in
    c1 ← choice_of "uppercase";
    let guaranteed_chars := guaranteed_chars ++ [c1] in
    c2 ← choice_of "lowercase";
    let guaranteed_chars := guaranteed_chars ++ [c2] in
    c3 ← choice_of "digits";
    let guaranteed_chars := guaranteed_chars ++ [c3] in
    ret (all_chars, guaranteed_chars)
  else if String.eqb strength "high" then
    dg ← getitem CHAR_SETS "digits";
    let all_chars := all_chars ++ chars dg in
    sp ← getitem CHAR_SETS "special_chars";
    let all_chars := all_chars ++ chars sp in
    c1 ← choice_of "uppercase";
    let guaranteed_chars := guaranteed_chars ++ [c1] in
    c2 ← choice_of "lowercase";
    let guaranteed_chars := guaranteed_chars ++ [c2] in
    c3 ← choice_of "digits";
    let guaranteed_chars := guaranteed_chars ++ [c3] in
    c4 ← choice_of "special_chars";
    let guaranteed_chars := guaranteed_chars ++ [c4] in
    ret (all_chars, guaranteed_chars)
  else
    ret (all_chars, guaranteed_chars).

Definition generate_password (len : Z) (strength : string) : M string :=
  sel ← select_chars strength;
  let '(all_chars, guaranteed_chars) := sel in
  if (Z.of_nat (length guaranteed_chars) >? len)%Z then
    ret error_message
  else
    let remaining_length := (len - Z.of_nat (length guaranteed_chars))%Z in
    let remaining_length :=
      if (remaining_length <? 0)%Z then 0%Z else remaining_length in
    random_chars ← choices (Z.to_nat remaining_length) all_chars;
    let final_password_list := guaranteed_chars ++ random_chars in
    final_password_list ← shuffle final_password_list;
    ret (join final_password_list).

Definition run {A} (m : M A) (r : rng) : outcome A := fst (m r).

(** A fixed tape for examples: the [k]-th raw draw is [7 * k + 3]. *)
Definition tape0 : rng := {| tape := λ k, 7 * k + 3; pos := 0 |}.

(** ** Vocabulary of the properties

    The tiers, character classes and universes in which the properties of
    the generator are stated.  [select_chars_yields] below shows that
    [select_chars] computes exactly these. *)

Inductive CharacterClass : Type :=
| Uppercase
| Lowercase
| Digit
| Special.

#[export] Instance CharacterClass_eq_dec : EqDecision CharacterClass.
Proof. solve_decision. Defined.

(** The key of a class in [CHAR_SETS] and its character set. *)
Definition class_key (cls : CharacterClass) : string :=
  match cls with
  | Uppercase => "uppercase"
  | Lowercase => "lowercase"
  | Digit => "digits"
  | Special => "special_chars"
  end.

Definition charset (cls : CharacterClass) : string :=
  match cls with
  | Uppercase => ascii_uppercase
  | Lowercase => ascii_lowercase
  | Digit => digits
  | Special => punctuation
  end.

Definition alphabet (cls : CharacterClass) : list ascii :=
  chars (charset cls).

(** The three strength values offered by the form. *)
Definition is_tier (strength : string) : Prop :=
  strength = "low" ∨ strength = "medium" ∨ strength = "high".

(** Classes with one mandatory character, in the order the code draws
    them.  Any other strength takes the final [else] of the code. *)
Definition guaranteed_classes (strength : string) : list CharacterClass :=
  if String.eqb strength "low" then []
  else if String.eqb strength "medium" then [Uppercase; Lowercase; Digit]
  else if String.eqb strength "high" then
    [Uppercase; Lowercase; Digit; Special]
  else [].

Definition universe_classes (strength : string) : list CharacterClass :=
  if String.eqb strength "low" then [Uppercase; Lowercase]
  else if String.eqb strength "medium" then [Uppercase; Lowercase; Digit]
  else if String.eqb strength "high" then
    [Uppercase; Lowercase; Digit; Special]
  else [Uppercase; Lowercase].

Definition universe (strength : string) : list ascii :=
  mjoin (alphabet <$> universe_classes strength).

(** The string [s] has a character of class [cls]. *)
Definition has_class (cls : CharacterClass) (s : string) : Prop :=
  ∃ c, c ∈ chars s ∧ c ∈ alphabet cls.

(** A password for the request [(len, strength)]. *)
Definition is_password (len : Z) (strength : string) (s : string) : Prop :=
  Z.of_nat (String.length s) = len ∧
  Forall (λ c, c ∈ universe strength) (chars s).

(** Character classes by code, independent of the string literals. *)
Definition code_in (lo hi : nat) (c : ascii) : bool :=
  (lo <=? nat_of_ascii c) && (nat_of_ascii c <=? hi).

Definition is_upper (c : ascii) : bool := code_in 65 90 c.
Definition is_lower (c : ascii) : bool := code_in 97 122 c.
Definition is_digit (c : ascii) : bool := code_in 48 57 c.
Definition is_punct (c : ascii) : bool :=
  code_in 33 47 c || code_in 58 64 c || code_in 91 96 c || code_in 123 126 c.
Definition is_letter (c : ascii) : bool := is_upper c || is_lower c.

Definition in_class (cls : CharacterClass) (c : ascii) : bool :=
  match cls with
  | Uppercase => is_upper c
  | Lowercase => is_lower c
  | Digit => is_digit c
  | Special => is_punct c
  end.

(** How a caller reads an outcome against the call contract: the only
    failure the code reports is its length-too-short message. *)
Inductive ErrorKind : Type :=
| InsufficientLength
| InvalidLength.

Inductive Response : Type :=
| Password (password : string)
| Error (error : ErrorKind) (message : string)
| Unexpected (e : exn).

Definition response_of (o : outcome string) : Response :=
  match o with
  | Returns s =>
      if String.eqb s error_message then Error InsufficientLength s
      else Password s
  | Raises e => Unexpected e
  end.

(** Number of random draws of a call, by phase: the guaranteed characters,
    the filler loop and the shuffle loop. *)
Definition guaranteed_draws (strength : string) : nat :=
  length (guaranteed_classes strength).

Definition filler_draws (len : Z) (strength : string) : nat :=
  Z.to_nat (len - Z.of_nat (guaranteed_draws strength)).

Definition shuffle_draws (len : Z) (strength : string) : nat :=
  if (len <? Z.of_nat (guaranteed_draws strength))%Z then 0
  else Z.to_nat len - 1.

(** [m], started in [r], returns [a] after exactly [k] draws. *)
Definition yields {A} (m : M A) (r : rng) (a : A) (k : nat) : Prop :=
  m r = (Returns a, advance k r).

(** ** The form and its event handler

    The widgets are kept by what the handler reads and writes: the text of
    the length field, the selected strength, the output field with its
    text and state, and the message boxes shown so far. *)

Definition MIN_PASS_LENGTH : Z := 4.
Definition MAX_PASS_LENGTH : Z := 80.

(** The states the code gives to the output field. *)
Inductive EntryState : Type :=
| normal
| readonly.

Record Entry : Type := mkEntry { entry_text : string; entry_state : EntryState }.

(** [entry.config(state=st)]. *)
Definition config (st : EntryState) (e : Entry) : Entry :=
  {| entry_text := entry_text e; entry_state := st |}.

(** [entry.delete(0, tk.END)]: without effect on a read-only field. *)
Definition delete_all (e : Entry) : Entry :=
  match entry_state e with
  | normal => {| entry_text := EmptyString; entry_state := normal |}
  | readonly => e
  end.

(** [entry.insert(0, s)]: without effect on a read-only field. *)
Definition insert_0 (s : string) (e : Entry) : Entry :=
  match entry_state e with
  | normal => {| entry_text := s +:+ entry_text e; entry_state := normal |}
  | readonly => e
  end.

(** A message box: [showwarning(title, message)], or [showerror] whose
    message is a fixed text followed by the rendering of the exception. *)
Inductive Dialog : Type :=
| showwarning (title message : string)
| showerror (title message : string) (e : exn).

Record Form : Type := mkForm {
  length_entry : string;
  strength_var : string;
  generated_pass_entry : Entry;
  dialogs : list Dialog
}.

Definition show (d : Dialog) (f : Form) : Form :=
  {| length_entry := length_entry f;
     strength_var := strength_var f;
     generated_pass_entry := generated_pass_entry f;
     dialogs := dialogs f ++ [d] |}.

Definition with_output (e : Entry) (f : Form) : Form :=
  {| length_entry := length_entry f;
     strength_var := strength_var f;
     generated_pass_entry := e;
     dialogs := dialogs f |}.

(** The handler of the button.  [int] is the conversion applied to the
    text of the length field, [None] standing for its [ValueError]. *)
Definition on_generate_button_click (int : string → option Z) (f : Form)
    (r : rng) : Form * rng :=
  match int (length_entry f) with
  | None =>
      (show (showwarning "Input Error"
               "Please enter a valid number for password length.") f, r)
  | Some len =>
      let strength := strength_var f in
      if negb ((MIN_PASS_LENGTH <=? len)%Z && (len <=? MAX_PASS_LENGTH)%Z) then
        (show (showwarning "Input Error"
                 ("Password length must be between " +:+ pretty MIN_PASS_LENGTH
                  +:+ " and " +:+ pretty MAX_PASS_LENGTH +:+ ".")) f, r)
      else
        let f := with_output (config normal (generated_pass_entry f)) f in
        let f := with_output (delete_all (generated_pass_entry f)) f in
        match generate_password len strength r with
        | (Returns new_password, r') =>
            let f :=
              with_output (insert_0 new_password (generated_pass_entry f)) f in
            let f := with_output (config readonly (generated_pass_entry f)) f in
            (f, r')
        | (Raises e, r') =>
            (show (showerror "An Error Occurred"
                     "An unexpected error happened: " e) f, r')
        end
  end.

(** The three radio buttons and the value each gives to [strength_var]. *)
Inductive Radiobutton : Type :=
| Low
| Medium
| High.

Definition radio_value (b : Radiobutton) : string :=
  match b with
  | Low => "low"
  | Medium => "medium"
  | High => "high"
  end.

(** The widgets as [setup_ui_elements] returns them: length 12, the high
    strength selected, an empty read-only output field. *)
Definition setup_ui_elements : Form :=
  {| length_entry := "12";
     strength_var := "high";
     generated_pass_entry :=
       {| entry_text := EmptyString; entry_state := readonly |};
     dialogs := [] |}.

(** What the user can do with the form: retype the length field, pick a
    radio button, press the button. *)
Inductive Event : Type :=
| Typed (text : string)
| Selected (b : Radiobutton)
| Clicked.

Definition handle (int : string → option Z) (ev : Event) (w : Form * rng)
    : Form * rng :=
  match ev with
  | Typed text =>
      ({| length_entry := text;
          strength_var := strength_var w.1;
          generated_pass_entry := generated_pass_entry w.1;
          dialogs := dialogs w.1 |}, w.2)
  | Selected b =>
      ({| length_entry := length_entry w.1;
          strength_var := radio_value b;
          generated_pass_entry := generated_pass_entry w.1;
          dialogs := dialogs w.1 |}, w.2)
  | Clicked => on_generate_button_click int w.1 w.2
  end.

(** A session: the events in order, starting from the fresh form. *)
Definition session (int : string → option Z) (evs : list Event) (r : rng)
    : Form * rng :=
  foldl (λ w ev, handle int ev w) (setup_ui_elements, r) evs.

(** A conversion for the examples: plain strings of decimal digits. *)
Definition digit_value (c : ascii) : option Z :=
  if is_digit c then Some (Z.of_nat (nat_of_ascii c) - 48)%Z else None.

Fixpoint int_digits_go (acc : Z) (s : string) : option Z :=
  match s with
  | EmptyString => Some acc
  | String c s' =>
      match digit_value c with
      | Some d => int_digits_go (10 * acc + d) s'
      | None => None
      end
  end.

Definition int_digits (s : string) : option Z :=
  match s with
  | EmptyString => None
  | _ => int_digits_go 0 s
  end.

Definition is_warning (d : Dialog) : Prop :=
  match d with
  | showwarning _ _ => True
  | showerror _ _ _ => False
  end.

(** A password the form can show: for a length of the accepted range and
    one of the three tiers, with every guaranteed class present. *)
Definition compliant (s : string) : Prop :=
  ∃ len strength,
    (MIN_PASS_LENGTH ≤ len ≤ MAX_PASS_LENGTH)%Z ∧
    is_tier strength ∧
    is_password len strength s ∧
    (∀ cls, cls ∈ guaranteed_classes strength → has_class cls s).

Definition form_ok (f : Form) : Prop :=
  is_tier (strength_var f) ∧
  entry_state (generated_pass_entry f) = readonly ∧
  (entry_text (generated_pass_entry f) = EmptyString ∨
   compliant (entry_text (generated_pass_entry f))) ∧
  Forall is_warning (dialogs f).

(** ** Prescribed draws

    [reads m ds a]: on every random source whose next raw draws are [ds],
    [m] returns [a] and consumes exactly those draws. *)

Definition agrees (r : rng) (ds : list nat) : Prop :=
  ∀ i d, ds !! i = Some d → tape r (pos r + i) = d.

Definition reads {A} (m : M A) (ds : list nat) (a : A) : Prop :=
  ∀ r, agrees r ds → yields m r a (length ds).

(** The random source whose raw draws are [ds], followed by zeros. *)
Definition tape_of (ds : list nat) : rng :=
  {| tape := λ k, default 0 (ds !! k); pos := 0 |}.

(** ** The random source and the monad *)

Lemma advance_0 r : advance 0 r = r.
Proof. destruct r as [t p]. unfold advance; simpl. by rewrite Nat.add_0_r. Qed.

Lemma advance_advance a b r : advance b (advance a r) = advance (a + b) r.
Proof. unfold advance; simpl. by rewrite Nat.add_assoc. Qed.

Lemma pos_advance k r : pos (advance k r) = pos r + k.
Proof. done. Qed.

Lemma yields_ret {A} (a : A) r : yields (mret a) r a 0.
Proof. unfold yields. by rewrite advance_0. Qed.

Lemma yields_bind {A B} (m : M A) (f : A → M B) r a b k1 k2 :
  yields m r a k1 →
  yields (f a) (advance k1 r) b k2 →
  yields (m ≫= f) r b (k1 + k2).
Proof.
  unfold yields. intros Hm Hf.
  unfold mbind, M_bind, bind. by rewrite Hm, Hf, advance_advance.
Qed.

Lemma yields_bind_eq {A B} (m : M A) (f : A → M B) r a b k1 k2 k :
  yields m r a k1 →
  yields (f a) (advance k1 r) b k2 →
  k = k1 + k2 →
  yields (m ≫= f) r b k.
Proof. intros Hm Hf ->. by eapply yields_bind. Qed.

Lemma bind_ret_l {A B} (a : A) (f : A → M B) : (mret a ≫= f) = f a.
Proof. reflexivity. Qed.

Lemma yields_inj {A} (m : M A) r a1 a2 k1 k2 :
  yields m r a1 k1 → yields m r a2 k2 → a1 = a2 ∧ k1 = k2.
Proof.
  unfold yields. intros H1 H2. rewrite H1 in H2.
  injection H2 as -> Hp. split; [done|]. lia.
Qed.

Lemma randbelow_yields n r :
  yields (randbelow n) r (tape r (pos r) `mod` n) 1.
Proof. done. Qed.

Lemma randbelow_lt n r k :
  0 < n → run (randbelow n) r = Returns k → k < n.
Proof.
  intros Hn [= <-]. by apply Nat.mod_upper_bound, Nat.neq_0_lt_0.
Qed.

(** Every sample below [n] is the answer of some random source. *)
Lemma randbelow_any n k p :
  k < n → run (randbelow n) {| tape := λ _, k; pos := p |} = Returns k.
Proof. intros Hk. unfold run, randbelow; simpl. by rewrite Nat.mod_small. Qed.

Lemma choice_yields seq r :
  seq ≠ [] →
  ∃ c, yields (choice seq) r c 1 ∧ c ∈ seq.
Proof.
  intros Hne. unfold choice.
  destruct (decide (length seq = 0)) as [H0|H0].
  { by apply length_zero_iff_nil in H0. }
  assert (Hlt : tape r (pos r) `mod` length seq < length seq)
    by (apply Nat.mod_upper_bound; lia).
  destruct (lookup_lt_is_Some_2 _ _ Hlt) as [c Hc].
  exists c. split; [|by eapply list_elem_of_lookup_2].
  unfold yields, mbind, M_bind, bind, randbelow. by rewrite Hc.
Qed.

Lemma choices_yields n all_chars r :
  all_chars ≠ [] →
  ∃ cs, yields (choices n all_chars) r cs n ∧
        length cs = n ∧ Forall (λ c, c ∈ all_chars) cs.
Proof.
  intros Hne. revert r. induction n as [|n IH]; intros r.
  { exists []. split; [apply yields_ret|]. by split. }
  destruct (choice_yields all_chars r Hne) as (c & Hc & Hin).
  destruct (IH (advance 1 r)) as (cs & Hcs & Hlen & Hall).
  exists (c :: cs). split; [|split; [simpl; by rewrite Hlen | by constructor]].
  simpl. change (S n) with (1 + n).
  eapply yields_bind; [exact Hc|].
  replace n with (n + 0) at 2 by lia.
  eapply yields_bind; [exact Hcs|]. apply yields_ret.
Qed.

(** ** The shuffle *)

Lemma swap_yields x i j r :
  i < length x → j < length x →
  ∃ x', yields (swap x i j) r x' 0 ∧ x' ≡ₚ x.
Proof.
  intros Hi Hj. unfold swap.
  destruct (lookup_lt_is_Some_2 _ _ Hi) as [xi Hxi].
  destruct (lookup_lt_is_Some_2 _ _ Hj) as [xj Hxj].
  rewrite Hxi, Hxj. eexists. split; [apply yields_ret|].
  by apply Permutation_insert_swap.
Qed.

Lemma shuffle_loop_yields i x r :
  i < length x ∨ i = 0 →
  ∃ x', yields (shuffle_loop i x) r x' i ∧ x' ≡ₚ x.
Proof.
  revert x r. induction i as [|i IH]; intros x r Hi.
  { exists x. split; [apply yields_ret | done]. }
  assert (Hlt : S i < length x) by (destruct Hi; [done | lia]).
  set (j := tape r (pos r) `mod` (S i + 1)).
  assert (Hj : j < length x).
  { pose proof (Nat.mod_upper_bound (tape r (pos r)) (S i + 1)). lia. }
  destruct (swap_yields x (S i) j (advance 1 r) Hlt Hj) as (x1 & Hsw & Hp1).
  destruct (IH x1 (advance (1 + 0) r)) as (x2 & Hlp & Hp2).
  { left. apply Permutation_length in Hp1. lia. }
  exists x2. split; [|by rewrite Hp2].
  cbn [shuffle_loop]. change (S i) with (1 + (0 + i)) at 3.
  eapply yields_bind; [apply randbelow_yields|].
  eapply yields_bind; [exact Hsw|].
  by rewrite advance_advance.
Qed.

Lemma shuffle_yields x r :
  ∃ x', yields (shuffle x) r x' (length x - 1) ∧ x' ≡ₚ x.
Proof. apply shuffle_loop_yields. lia. Qed.

(** ** Strings and character classes *)

Lemma chars_join l : chars (join l) = l.
Proof. apply String.list_ascii_of_string_of_list_ascii. Qed.

Lemma length_chars s : length (chars s) = String.length s.
Proof. induction s as [|c s IH]; simpl; [done | by rewrite IH]. Qed.

Lemma alphabet_in_class cls c :
  c ∈ alphabet cls ↔ in_class cls c = true.
Proof.
  rewrite <- (bool_decide_eq_true (c ∈ alphabet cls)).
  enough (bool_decide (c ∈ alphabet cls) = in_class cls c) as -> by done.
  destruct cls, c as [[] [] [] [] [] [] [] []]; vm_compute; reflexivity.
Qed.

Lemma space_in_no_class cls : " "%char ∉ alphabet cls.
Proof. rewrite alphabet_in_class. by destruct cls. Qed.

Lemma alphabet_nonempty cls : alphabet cls ≠ [].
Proof. by destruct cls. Qed.

(** ** The tiers *)

Lemma strength_cases strength :
  strength = "low" ∨ strength = "medium" ∨ strength = "high" ∨
  (String.eqb strength "low" = false ∧
   String.eqb strength "medium" = false ∧
   String.eqb strength "high" = false).
Proof.
  destruct (String.eqb_spec strength "low"); [by left|].
  destruct (String.eqb_spec strength "medium"); [by right; left|].
  destruct (String.eqb_spec strength "high"); [by right; right; left|].
  by right; right; right.
Qed.

Lemma not_tier_eqb strength :
  ¬ is_tier strength →
  String.eqb strength "low" = false ∧
  String.eqb strength "medium" = false ∧
  String.eqb strength "high" = false.
Proof.
  intros Hn. destruct (strength_cases strength) as [->|[->|[->|H]]];
    [exfalso; apply Hn; unfold is_tier; auto .. | done].
Qed.

Lemma elem_of_universe strength c :
  c ∈ universe strength ↔
  ∃ cls, cls ∈ universe_classes strength ∧ c ∈ alphabet cls.
Proof.
  unfold universe. rewrite list_elem_of_join. split.
  - intros (l & Hc & Hl). apply list_elem_of_fmap in Hl as (cls & -> & Hcls).
    eauto.
  - intros (cls & Hcls & Hc). exists (alphabet cls). split; [done|].
    apply list_elem_of_fmap. eauto.
Qed.

Lemma guaranteed_in_universe strength cls :
  cls ∈ guaranteed_classes strength → cls ∈ universe_classes strength.
Proof.
  unfold guaranteed_classes, universe_classes.
  destruct (String.eqb strength "low"); [by intros ?%elem_of_nil|].
  destruct (String.eqb strength "medium"); [done|].
  destruct (String.eqb strength "high"); [done|].
  by intros ?%elem_of_nil.
Qed.

Lemma universe_nonempty strength : universe strength ≠ [].
Proof.
  unfold universe, universe_classes.
  by destruct (String.eqb strength "low"), (String.eqb strength "medium"),
    (String.eqb strength "high").
Qed.

Lemma space_not_in_universe strength : " "%char ∉ universe strength.
Proof.
  rewrite elem_of_universe. intros (cls & _ & Hc).
  by apply space_in_no_class in Hc.
Qed.

Lemma space_in_error_message : " "%char ∈ chars error_message.
Proof. apply (bool_decide_unpack _). vm_compute. exact I. Qed.

(** The message is not made of characters of any universe. *)
Lemma error_message_not_universe strength :
  ¬ Forall (λ c, c ∈ universe strength) (chars error_message).
Proof.
  intros Hall. rewrite Forall_forall in Hall.
  apply (space_not_in_universe strength), Hall, space_in_error_message.
Qed.

(** ** The dictionary lookups and the guaranteed draws *)

Lemma getitem_class cls :
  getitem CHAR_SETS (class_key cls) = mret (charset cls).
Proof. destruct cls; vm_compute; reflexivity. Qed.

Lemma getitem_uppercase : getitem CHAR_SETS "uppercase" = mret ascii_uppercase.
Proof. exact (getitem_class Uppercase). Qed.

Lemma getitem_lowercase : getitem CHAR_SETS "lowercase" = mret ascii_lowercase.
Proof. exact (getitem_class Lowercase). Qed.

Lemma getitem_digits : getitem CHAR_SETS "digits" = mret digits.
Proof. exact (getitem_class Digit). Qed.

Lemma getitem_special_chars :
  getitem CHAR_SETS "special_chars" = mret punctuation.
Proof. exact (getitem_class Special). Qed.

Lemma choice_of_yields cls r :
  ∃ c, yields (choice_of (class_key cls)) r c 1 ∧ c ∈ alphabet cls.
Proof.
  unfold choice_of. rewrite getitem_class, bind_ret_l.
  apply choice_yields, alphabet_nonempty.
Qed.

(** [select_chars] computes the universe of the strength and draws one
    character per guaranteed class, in order. *)
Lemma select_chars_yields strength r :
  ∃ g, yields (select_chars strength) r (universe strength, g)
         (guaranteed_draws strength) ∧
       Forall2 (λ c cls, c ∈ alphabet cls) g (guaranteed_classes strength).
Proof.
  unfold select_chars, guaranteed_draws, guaranteed_classes, universe,
    universe_classes.
  rewrite getitem_uppercase, bind_ret_l; cbv beta.
  rewrite getitem_lowercase, bind_ret_l; cbv beta.
  destruct (String.eqb strength "low").
  { exists []. split; [apply yields_ret | constructor]. }
  destruct (String.eqb strength "medium").
  { rewrite getitem_digits, bind_ret_l; cbv beta.
    destruct (choice_of_yields Uppercase r) as (c1 & H1 & Hc1).
    destruct (choice_of_yields Lowercase (advance 1 r)) as (c2 & H2 & Hc2).
    destruct (choice_of_yields Digit (advance 1 (advance 1 r)))
      as (c3 & H3 & Hc3).
    exists [c1; c2; c3]. split; [|repeat (constructor; [assumption|]); constructor].
    eapply yields_bind_eq; [exact H1| |reflexivity].
    eapply yields_bind_eq; [exact H2| |reflexivity].
    eapply yields_bind_eq; [exact H3| |reflexivity].
    apply yields_ret. }
  destruct (String.eqb strength "high").
  { rewrite getitem_digits, bind_ret_l; cbv beta.
    rewrite getitem_special_chars, bind_ret_l; cbv beta.
    destruct (choice_of_yields Uppercase r) as (c1 & H1 & Hc1).
    destruct (choice_of_yields Lowercase (advance 1 r)) as (c2 & H2 & Hc2).
    destruct (choice_of_yields Digit (advance 1 (advance 1 r)))
      as (c3 & H3 & Hc3).
    destruct (choice_of_yields Special (advance 1 (advance 1 (advance 1 r))))
      as (c4 & H4 & Hc4).
    exists [c1; c2; c3; c4]. split; [|repeat (constructor; [assumption|]); constructor].
    eapply yields_bind_eq; [exact H1| |reflexivity].
    eapply yields_bind_eq; [exact H2| |reflexivity].
    eapply yields_bind_eq; [exact H3| |reflexivity].
    eapply yields_bind_eq; [exact H4| |reflexivity].
    apply yields_ret. }
  exists []. split; [apply yields_ret | constructor].
Qed.

(** ** The two paths of [generate_password] *)

(** The failure path: the message comes back after the guaranteed draws. *)
Lemma generate_password_short len strength r :
  (len < Z.of_nat (guaranteed_draws strength))%Z →
  yields (generate_password len strength) r error_message
    (guaranteed_draws strength).
Proof.
  intros Hlt. destruct (select_chars_yields strength r) as (g & Hsel & Hg).
  apply Forall2_length in Hg. fold (guaranteed_draws strength) in Hg.
  unfold generate_password.
  eapply yields_bind_eq; [exact Hsel| |by rewrite Nat.add_0_r].
  cbv beta iota. rewrite Hg, Z.gtb_ltb.
  destruct (Z.ltb_spec len (Z.of_nat (guaranteed_draws strength))); [|lia].
  apply yields_ret.
Qed.

(** The success path: guaranteed characters [g], filler [cs], and a
    permutation of their concatenation. *)
Lemma generate_password_long len strength r :
  (Z.of_nat (guaranteed_draws strength) ≤ len)%Z →
  ∃ g cs s,
    yields (generate_password len strength) r s
      (guaranteed_draws strength + filler_draws len strength +
       (Z.to_nat len - 1)) ∧
    Forall2 (λ c cls, c ∈ alphabet cls) g (guaranteed_classes strength) ∧
    length cs = filler_draws len strength ∧
    Forall (λ c, c ∈ universe strength) cs ∧
    chars s ≡ₚ g ++ cs.
Proof.
  intros Hle. destruct (select_chars_yields strength r) as (g & Hsel & Hg).
  pose proof (Forall2_length _ _ _ Hg) as Hlen.
  fold (guaranteed_draws strength) in Hlen.
  set (ng := guaranteed_draws strength) in *.
  destruct (choices_yields (filler_draws len strength) (universe strength)
              (advance ng r) (universe_nonempty strength))
    as (cs & Hcs & Hcslen & Hcsall).
  destruct (shuffle_yields (g ++ cs)
              (advance (filler_draws len strength) (advance ng r)))
    as (x' & Hsh & Hperm).
  exists g, cs, (join x'). rewrite chars_join.
  split; [|done].
  unfold generate_password.
  eapply yields_bind_eq; [exact Hsel| |rewrite <- Nat.add_assoc; reflexivity].
  cbv beta iota zeta. rewrite Hlen, Z.gtb_ltb.
  destruct (Z.ltb_spec len (Z.of_nat ng)); [lia|].
  destruct (Z.ltb_spec (len - Z.of_nat ng) 0); [lia|].
  eapply yields_bind_eq; [exact Hcs| |reflexivity].
  eapply yields_bind_eq; [exact Hsh| |].
  - apply yields_ret.
  - rewrite length_app, Hlen, Hcslen. unfold filler_draws. fold ng. lia.
Qed.

Lemma has_class_guaranteed g cs s strength cls :
  Forall2 (λ c cls, c ∈ alphabet cls) g (guaranteed_classes strength) →
  chars s ≡ₚ g ++ cs →
  cls ∈ guaranteed_classes strength →
  has_class cls s.
Proof.
  intros Hg Hperm Hcls.
  apply list_elem_of_lookup in Hcls as [i Hi].
  destruct (Forall2_lookup_r _ _ _ _ _ Hg Hi) as (c & Hc & Hin).
  exists c. split; [|done]. rewrite Hperm.
  apply elem_of_app. left. by eapply list_elem_of_lookup_2.
Qed.

Lemma guaranteed_chars_in_universe g strength :
  Forall2 (λ c cls, c ∈ alphabet cls) g (guaranteed_classes strength) →
  Forall (λ c, c ∈ universe strength) g.
Proof.
  intros Hg. apply Forall_forall. intros c Hc.
  apply list_elem_of_lookup in Hc as [i Hi].
  destruct (Forall2_lookup_l _ _ _ _ _ Hg Hi) as (cls & Hcls & Hin).
  apply elem_of_universe. exists cls. split; [|done].
  apply guaranteed_in_universe. by eapply list_elem_of_lookup_2.
Qed.

(** The success path in the vocabulary of the properties. *)
Lemma generate_password_ok len strength r :
  (Z.of_nat (guaranteed_draws strength) ≤ len)%Z →
  ∃ s,
    yields (generate_password len strength) r s
      (guaranteed_draws strength + filler_draws len strength +
       (Z.to_nat len - 1)) ∧
    is_password len strength s ∧
    (∀ cls, cls ∈ guaranteed_classes strength → has_class cls s) ∧
    s ≠ error_message.
Proof.
  intros Hle.
  destruct (generate_password_long len strength r Hle)
    as (g & cs & s & Hy & Hg & Hcslen & Hcsall & Hperm).
  assert (Hpw : is_password len strength s).
  { split.
    - rewrite <- length_chars, Hperm, length_app, Hcslen.
      rewrite (Forall2_length _ _ _ Hg). unfold filler_draws, guaranteed_draws in *.
      lia.
    - rewrite Hperm. apply Forall_app. split; [|done].
      by apply guaranteed_chars_in_universe. }
  exists s. split; [done|]. split; [done|]. split.
  - intros cls Hcls. by eapply has_class_guaranteed.
  - intros ->. destruct Hpw as [_ Hall].
    by apply error_message_not_universe in Hall.
Qed.

Lemma yields_run {A} (m : M A) r a k : yields m r a k → run m r = Returns a.
Proof. unfold yields, run. by intros ->. Qed.

Lemma yields_snd {A} (m : M A) r a k : yields m r a k → snd (m r) = advance k r.
Proof. unfold yields. by intros ->. Qed.

(** Every call takes one of the two paths. *)
Lemma generate_password_cases len strength r :
  ((len < Z.of_nat (guaranteed_draws strength))%Z ∧
   yields (generate_password len strength) r error_message
     (guaranteed_draws strength)) ∨
  ((Z.of_nat (guaranteed_draws strength) ≤ len)%Z ∧
   ∃ s, yields (generate_password len strength) r s
          (guaranteed_draws strength + filler_draws len strength +
           (Z.to_nat len - 1)) ∧
        is_password len strength s ∧
        (∀ cls, cls ∈ guaranteed_classes strength → has_class cls s) ∧
        s ≠ error_message).
Proof.
  destruct (Z.lt_ge_cases len (Z.of_nat (guaranteed_draws strength))).
  - left. split; [done|]. by apply generate_password_short.
  - right. split; [done|]. by apply generate_password_ok.
Qed.

Lemma universe_in_class strength c :
  c ∈ universe strength →
  ∃ cls, cls ∈ universe_classes strength ∧ in_class cls c = true.
Proof.
  rewrite elem_of_universe. intros (cls & Hcls & Hc).
  exists cls. by rewrite <- alphabet_in_class.
Qed.

Lemma has_class_in_class cls s :
  has_class cls s → Exists (λ c, in_class cls c = true) (chars s).
Proof.
  intros (c & Hc & Hin). apply Exists_exists. exists c.
  by rewrite <- alphabet_in_class.
Qed.

Lemma letters_digits_not_punct c :
  is_letter c || is_digit c = true → is_punct c = false.
Proof. destruct c as [[] [] [] [] [] [] [] []]; vm_compute; congruence. Qed.

Lemma universe_low_letters c : c ∈ universe "low" → is_letter c = true.
Proof.
  intros (cls & Hcls & Hc)%universe_in_class. unfold is_letter.
  change (universe_classes "low") with [Uppercase; Lowercase] in Hcls.
  apply elem_of_cons in Hcls as [->|Hcls]; [simpl in Hc; by rewrite Hc|].
  apply list_elem_of_singleton in Hcls as ->. simpl in Hc.
  rewrite Hc. apply orb_true_r.
Qed.

Lemma universe_medium_alnum c :
  c ∈ universe "medium" → is_letter c || is_digit c = true.
Proof.
  intros (cls & Hcls & Hc)%universe_in_class. unfold is_letter.
  change (universe_classes "medium") with [Uppercase; Lowercase; Digit]
    in Hcls.
  repeat (apply elem_of_cons in Hcls as [->|Hcls];
          [simpl in Hc; rewrite Hc; by rewrite ?orb_true_r|]).
  by apply elem_of_nil in Hcls.
Qed.

Lemma universe_high_printable c :
  c ∈ universe "high" → is_letter c || is_digit c || is_punct c = true.
Proof.
  intros (cls & Hcls & Hc)%universe_in_class. unfold is_letter.
  change (universe_classes "high")
    with [Uppercase; Lowercase; Digit; Special] in Hcls.
  repeat (apply elem_of_cons in Hcls as [->|Hcls];
          [simpl in Hc; rewrite Hc; by rewrite ?orb_true_r|]).
  by apply elem_of_nil in Hcls.
Qed.

Lemma select_chars_unknown strength :
  ¬ is_tier strength → select_chars strength = select_chars "low".
Proof.
  intros (Hl & Hm & Hh)%not_tier_eqb.
  unfold select_chars. by rewrite Hl, Hm, Hh.
Qed.

Lemma guaranteed_classes_unknown strength :
  ¬ is_tier strength → guaranteed_classes strength = [].
Proof.
  intros (Hl & Hm & Hh)%not_tier_eqb.
  unfold guaranteed_classes. by rewrite Hl, Hm, Hh.
Qed.

Lemma universe_unknown strength :
  ¬ is_tier strength → universe strength = universe "low".
Proof.
  intros (Hl & Hm & Hh)%not_tier_eqb.
  unfold universe, universe_classes. by rewrite Hl, Hm, Hh.
Qed.

(** ** Runs on the example tape *)

Example medium_12 :
  run (generate_password 12 "medium") tape0 = Returns "7f7mEL0SDktY".
Proof. vm_compute. reflexivity. Qed.

Example high_8 :
  run (generate_password 8 "high") tape0 = Returns "f7mtDk0]".
Proof. vm_compute. reflexivity. Qed.

Example high_2 :
  generate_password 2 "high" tape0 = (Returns error_message, advance 4 tape0).
Proof. vm_compute. reflexivity. Qed.

Example low_negative :
  generate_password (-1) "low" tape0 = (Returns error_message, tape0).
Proof. vm_compute. reflexivity. Qed.

Example shuffle_abcd :
  run (shuffle (chars "abcd")) tape0 = Returns (chars "acbd").
Proof. vm_compute. reflexivity. Qed.

(** ** Properties of [generate_password] *)

(** C1: for every tier and every length that is at least the number of
    guaranteed classes of the tier (hence non-negative), the call succeeds
    and its result has exactly [len] characters. *)
Theorem generate_password_length len strength r :
  is_tier strength →
  (Z.of_nat (length (guaranteed_classes strength)) ≤ len)%Z →
  (0 ≤ len)%Z →
  ∃ s, run (generate_password len strength) r = Returns s ∧
       s ≠ error_message ∧
       Z.of_nat (String.length s) = len.
Proof.
  intros _ Hle _.
  destruct (generate_password_ok len strength r Hle)
    as (s & Hy & [Hlen _] & _ & Hne).
  exists s. split; [by eapply yields_run | done].
Qed.

Lemma generate_password_length_witness :
  is_tier "medium" ∧
  (Z.of_nat (length (guaranteed_classes "medium")) ≤ 12)%Z ∧
  (0 ≤ 12)%Z ∧
  ∃ s, run (generate_password 12 "medium") tape0 = Returns s ∧
       s ≠ error_message ∧
       Z.of_nat (String.length s) = 12%Z.
Proof.
  assert (H1 : is_tier "medium") by (right; left; reflexivity).
  assert (H2 : (Z.of_nat (length (guaranteed_classes "medium")) ≤ 12)%Z)
    by (vm_compute; discriminate).
  assert (H3 : (0 ≤ 12)%Z) by lia.
  split; [exact H1|]. split; [exact H2|]. split; [exact H3|].
  exact (generate_password_length 12 "medium" tape0 H1 H2 H3).
Defined.

(** C2: for every tier and every length that is at least the number of
    guaranteed classes, the result has a character of every guaranteed
    class: an uppercase letter, a lowercase letter and a digit for medium,
    additionally a punctuation character for high; low has no guaranteed
    class. *)
Theorem generate_password_classes len strength r :
  is_tier strength →
  (Z.of_nat (length (guaranteed_classes strength)) ≤ len)%Z →
  ∃ s, run (generate_password len strength) r = Returns s ∧
       s ≠ error_message ∧
       (∀ cls, cls ∈ guaranteed_classes strength → has_class cls s) ∧
       (strength = "medium" →
        Exists (λ c, is_upper c = true) (chars s) ∧
        Exists (λ c, is_lower c = true) (chars s) ∧
        Exists (λ c, is_digit c = true) (chars s)) ∧
       (strength = "high" →
        Exists (λ c, is_upper c = true) (chars s) ∧
        Exists (λ c, is_lower c = true) (chars s) ∧
        Exists (λ c, is_digit c = true) (chars s) ∧
        Exists (λ c, is_punct c = true) (chars s)) ∧
       (strength = "low" → guaranteed_classes strength = []).
Proof.
  intros _ Hle.
  destruct (generate_password_ok len strength r Hle)
    as (s & Hy & _ & Hcls & Hne).
  exists s. split; [by eapply yields_run|]. split; [done|].
  split; [done|]. split; [|split].
  - intros ->.
    split; [|split];
      [apply (has_class_in_class Uppercase) |
       apply (has_class_in_class Lowercase) |
       apply (has_class_in_class Digit)];
      apply Hcls; apply (bool_decide_unpack _); vm_compute; exact I.
  - intros ->.
    split; [|split; [|split]];
      [apply (has_class_in_class Uppercase) |
       apply (has_class_in_class Lowercase) |
       apply (has_class_in_class Digit) |
       apply (has_class_in_class Special)];
      apply Hcls; apply (bool_decide_unpack _); vm_compute; exact I.
  - by intros ->.
Qed.

Lemma generate_password_classes_witness :
  is_tier "high" ∧
  (Z.of_nat (length (guaranteed_classes "high")) ≤ 8)%Z ∧
  ∃ s, run (generate_password 8 "high") tape0 = Returns s ∧
       s ≠ error_message ∧
       (∀ cls, cls ∈ guaranteed_classes "high" → has_class cls s) ∧
       ("high" = "medium" →
        Exists (λ c, is_upper c = true) (chars s) ∧
        Exists (λ c, is_lower c = true) (chars s) ∧
        Exists (λ c, is_digit c = true) (chars s)) ∧
       ("high" = "high" →
        Exists (λ c, is_upper c = true) (chars s) ∧
        Exists (λ c, is_lower c = true) (chars s) ∧
        Exists (λ c, is_digit c = true) (chars s) ∧
        Exists (λ c, is_punct c = true) (chars s)) ∧
       ("high" = "low" → guaranteed_classes "high" = []).
Proof.
  assert (H1 : is_tier "high") by (right; right; reflexivity).
  assert (H2 : (Z.of_nat (length (guaranteed_classes "high")) ≤ 8)%Z)
    by (vm_compute; discriminate).
  split; [exact H1|]. split; [exact H2|].
  exact (generate_password_classes 8 "high" tape0 H1 H2).
Defined.

(** C3: for every tier and every length, the characters of a successful
    result all belong to the universe of the tier: letters only for low,
    letters and digits (no punctuation) for medium, letters, digits and
    punctuation for high. *)
Theorem generate_password_universe len strength r s :
  is_tier strength →
  run (generate_password len strength) r = Returns s →
  s ≠ error_message →
  Forall (λ c, c ∈ universe strength) (chars s) ∧
  (strength = "low" → Forall (λ c, is_letter c = true) (chars s)) ∧
  (strength = "medium" →
   Forall (λ c, is_letter c || is_digit c = true ∧ is_punct c = false)
     (chars s)) ∧
  (strength = "high" →
   Forall (λ c, is_letter c || is_digit c || is_punct c = true) (chars s)).
Proof.
  intros _ Hrun Hne.
  assert (Hall : Forall (λ c, c ∈ universe strength) (chars s)).
  { destruct (generate_password_cases len strength r)
      as [[_ Hy]|[_ (s' & Hy & [_ Hall] & _)]];
      apply yields_run in Hy; rewrite Hy in Hrun; by simplify_eq. }
  split; [done|]. split; [|split]; intros ->;
    eapply Forall_impl; try exact Hall; cbv beta.
  - apply universe_low_letters.
  - intros c Hc%universe_medium_alnum.
    split; [done | by apply letters_digits_not_punct].
  - apply universe_high_printable.
Qed.

Lemma generate_password_universe_witness :
  is_tier "medium" ∧
  run (generate_password 12 "medium") tape0 = Returns "7f7mEL0SDktY" ∧
  "7f7mEL0SDktY" ≠ error_message ∧
  Forall (λ c, c ∈ universe "medium") (chars "7f7mEL0SDktY") ∧
  ("medium" = "low" →
   Forall (λ c, is_letter c = true) (chars "7f7mEL0SDktY")) ∧
  ("medium" = "medium" →
   Forall (λ c, is_letter c || is_digit c = true ∧ is_punct c = false)
     (chars "7f7mEL0SDktY")) ∧
  ("medium" = "high" →
   Forall (λ c, is_letter c || is_digit c || is_punct c = true)
     (chars "7f7mEL0SDktY")).
Proof.
  assert (H1 : is_tier "medium") by (right; left; reflexivity).
  assert (H2 : run (generate_password 12 "medium") tape0
               = Returns "7f7mEL0SDktY") by (vm_compute; reflexivity).
  assert (H3 : "7f7mEL0SDktY" ≠ error_message) by (vm_compute; discriminate).
  split; [exact H1|]. split; [exact H2|]. split; [exact H3|].
  exact (generate_password_universe 12 "medium" tape0 _ H1 H2 H3).
Defined.

(** C4: for every tier and every non-negative length, the call fails with
    the length-too-short message (the insufficient-length failure) exactly
    when the length is below the number of guaranteed classes; the low tier
    never fails this way. *)
Theorem generate_password_insufficient_iff len strength r :
  is_tier strength →
  (0 ≤ len)%Z →
  (run (generate_password len strength) r = Returns error_message ↔
   (len < Z.of_nat (length (guaranteed_classes strength)))%Z) ∧
  (response_of (run (generate_password len strength) r)
     = Error InsufficientLength error_message ↔
   (len < Z.of_nat (length (guaranteed_classes strength)))%Z) ∧
  (strength = "low" →
   run (generate_password len strength) r ≠ Returns error_message).
Proof.
  intros _ Hpos.
  assert (Hiff : run (generate_password len strength) r = Returns error_message
                 ↔ (len < Z.of_nat (length (guaranteed_classes strength)))%Z).
  { destruct (generate_password_cases len strength r)
      as [[Hlt Hy]|[Hle (s & Hy & _ & _ & Hne)]];
      apply yields_run in Hy; rewrite Hy; unfold guaranteed_draws in *.
    - done.
    - split; [intros ?; by simplify_eq | lia]. }
  split; [done|]. split.
  - rewrite <- Hiff. destruct (run (generate_password len strength) r) as [s|e];
      simpl; [|done].
    destruct (String.eqb_spec s error_message) as [->|Hne]; [done|].
    split; intros ?; by simplify_eq.
  - intros -> Hrun. apply Hiff in Hrun.
    change (guaranteed_classes "low") with (@nil CharacterClass) in Hrun.
    simpl in Hrun. lia.
Qed.

Lemma generate_password_insufficient_iff_witness :
  is_tier "high" ∧ (0 ≤ 2)%Z ∧
  (run (generate_password 2 "high") tape0 = Returns error_message ↔
   (2 < Z.of_nat (length (guaranteed_classes "high")))%Z) ∧
  (response_of (run (generate_password 2 "high") tape0)
     = Error InsufficientLength error_message ↔
   (2 < Z.of_nat (length (guaranteed_classes "high")))%Z) ∧
  ("high" = "low" →
   run (generate_password 2 "high") tape0 ≠ Returns error_message).
Proof.
  assert (H1 : is_tier "high") by (right; right; reflexivity).
  assert (H2 : (0 ≤ 2)%Z) by lia.
  split; [exact H1|]. split; [exact H2|].
  exact (generate_password_insufficient_iff 2 "high" tape0 H1 H2).
Defined.

(** C5, as stated, fails: a negative length at the low tier is answered
    with the length-too-short message, the insufficient-length response,
    returned as a string; no invalid-length response exists. *)
Lemma negative_length_not_invalid_length :
  run (generate_password (-1) "low") tape0 = Returns error_message ∧
  response_of (run (generate_password (-1) "low") tape0)
    = Error InsufficientLength error_message ∧
  response_of (run (generate_password (-1) "low") tape0)
    ≠ Error InvalidLength error_message.
Proof.
  assert (H : run (generate_password (-1) "low") tape0 = Returns error_message)
    by (vm_compute; reflexivity).
  rewrite H. split; [done|]. split; [done|]. simpl. discriminate.
Qed.

(** C5, amended: for every tier and every length at most 0, except
    length 0 with no guaranteed class, the call returns the
    length-too-short message, which is the insufficient-length response. *)
Theorem generate_password_nonpositive len strength r :
  is_tier strength →
  (len ≤ 0)%Z →
  ¬ (len = 0%Z ∧ guaranteed_classes strength = []) →
  run (generate_password len strength) r = Returns error_message ∧
  response_of (run (generate_password len strength) r)
    = Error InsufficientLength error_message.
Proof.
  intros _ Hle Hex.
  assert (Hlt : (len < Z.of_nat (guaranteed_draws strength))%Z).
  { unfold guaranteed_draws.
    destruct (guaranteed_classes strength) as [|cls l] eqn:Hg; simpl length.
    - destruct (decide (len = 0%Z)); [by destruct Hex | lia].
    - lia. }
  apply (generate_password_short _ _ r), yields_run in Hlt.
  by rewrite Hlt.
Qed.

Lemma generate_password_nonpositive_witness :
  is_tier "medium" ∧ (-3 ≤ 0)%Z ∧
  ¬ ((-3)%Z = 0%Z ∧ guaranteed_classes "medium" = []) ∧
  run (generate_password (-3) "medium") tape0 = Returns error_message ∧
  response_of (run (generate_password (-3) "medium") tape0)
    = Error InsufficientLength error_message.
Proof.
  assert (H1 : is_tier "medium") by (right; left; reflexivity).
  assert (H2 : (-3 ≤ 0)%Z) by lia.
  assert (H3 : ¬ ((-3)%Z = 0%Z ∧ guaranteed_classes "medium" = []))
    by (intros [H _]; lia).
  split; [exact H1|]. split; [exact H2|]. split; [exact H3|].
  exact (generate_password_nonpositive (-3) "medium" tape0 H1 H2 H3).
Defined.

(** C6, as stated, fails: on the failure path of the medium tier the
    random source has been advanced by three draws. *)
Lemma insufficient_length_consumes_draws :
  run (generate_password 2 "medium") tape0 = Returns error_message ∧
  pos (snd (generate_password 2 "medium" tape0)) = 3 ∧
  snd (generate_password 2 "medium" tape0) ≠ tape0.
Proof.
  split; [vm_compute; reflexivity|]. split; [vm_compute; reflexivity|].
  intros H. apply (f_equal pos) in H. vm_compute in H. discriminate H.
Qed.

(** C6, amended: when the length is below the number of guaranteed
    classes, the result is the length-too-short message for every state
    of the random source, and the source is advanced by one draw per
    guaranteed class (drawn before the length test); it is unchanged only
    when there is no guaranteed class. *)
Theorem generate_password_insufficient_deterministic len strength r r' :
  (len < Z.of_nat (length (guaranteed_classes strength)))%Z →
  run (generate_password len strength) r = Returns error_message ∧
  run (generate_password len strength) r'
    = run (generate_password len strength) r ∧
  snd (generate_password len strength r)
    = advance (length (guaranteed_classes strength)) r ∧
  (guaranteed_classes strength = [] →
   snd (generate_password len strength r) = r).
Proof.
  intros Hlt.
  pose proof (generate_password_short len strength r Hlt) as Hy.
  pose proof (generate_password_short len strength r' Hlt) as Hy'.
  split; [by eapply yields_run|].
  split; [by rewrite (yields_run _ _ _ _ Hy), (yields_run _ _ _ _ Hy')|].
  split; [by apply yields_snd in Hy|].
  intros Hnil. apply yields_snd in Hy. rewrite Hy.
  unfold guaranteed_draws. rewrite Hnil. apply advance_0.
Qed.

Lemma generate_password_insufficient_deterministic_witness :
  (2 < Z.of_nat (length (guaranteed_classes "high")))%Z ∧
  run (generate_password 2 "high") tape0 = Returns error_message ∧
  run (generate_password 2 "high") (advance 5 tape0)
    = run (generate_password 2 "high") tape0 ∧
  snd (generate_password 2 "high" tape0)
    = advance (length (guaranteed_classes "high")) tape0 ∧
  (guaranteed_classes "high" = [] →
   snd (generate_password 2 "high" tape0) = tape0).
Proof.
  assert (H1 : (2 < Z.of_nat (length (guaranteed_classes "high")))%Z)
    by (vm_compute; reflexivity).
  split; [exact H1|].
  exact (generate_password_insufficient_deterministic
           2 "high" tape0 (advance 5 tape0) H1).
Defined.

(** C7, as stated, fails: the failure at length 2 of the high tier comes
    back through the ordinary return value, as a string that is not a
    password for the request. *)
Lemma failure_is_returned_string :
  run (generate_password 2 "high") tape0 = Returns error_message ∧
  ¬ is_password 2 "high" error_message.
Proof.
  split; [vm_compute; reflexivity|].
  intros [Hlen _]. vm_compute in Hlen. discriminate Hlen.
Qed.

(** C7, amended: every call returns a string, either a password for the
    request or, exactly when the length is below the number of guaranteed
    classes, the fixed length-too-short message; the message is a password
    for no request, so the caller can tell the two apart by comparing with
    it.  No exception is raised and no other error is reported. *)
Theorem generate_password_response len strength r :
  (∃ s, run (generate_password len strength) r = Returns s ∧
        ((s = error_message ∧
          (len < Z.of_nat (length (guaranteed_classes strength)))%Z) ∨
         (is_password len strength s ∧
          (Z.of_nat (length (guaranteed_classes strength)) ≤ len)%Z))) ∧
  (∀ len' strength', ¬ is_password len' strength' error_message) ∧
  (∀ m, response_of (run (generate_password len strength) r)
        ≠ Error InvalidLength m).
Proof.
  assert (Hmsg : ∀ len' strength', ¬ is_password len' strength' error_message).
  { intros len' strength' [_ Hall].
    by apply error_message_not_universe in Hall. }
  destruct (generate_password_cases len strength r)
    as [[Hlt Hy]|[Hle (s & Hy & Hpw & _ & Hne)]];
    apply yields_run in Hy; rewrite Hy.
  - split; [exists error_message; split; [done|by left]|].
    split; [done|]. intros m. simpl. discriminate.
  - split; [exists s; split; [done|by right]|].
    split; [done|]. intros m. simpl.
    destruct (String.eqb s error_message); discriminate.
Qed.

(** C8: at length 0 the low tier returns the empty string, from every
    state of the random source and without drawing from it; the low tier
    has no guaranteed class. *)
Theorem generate_password_zero_low r :
  generate_password 0 "low" r = (Returns EmptyString, r) ∧
  guaranteed_classes "low" = [].
Proof.
  split; [|reflexivity].
  destruct (generate_password_ok 0 "low" r) as (s & Hy & [Hlen _] & _).
  { vm_compute. discriminate. }
  destruct s as [|c s]; [|simpl in Hlen; lia].
  unfold yields in Hy. rewrite Hy.
  change (guaranteed_draws "low" + filler_draws 0 "low" + (Z.to_nat 0 - 1))
    with 0.
  by rewrite advance_0.
Qed.

(** C9: every call returns, whatever the length, the strength and the
    state of the random source.  It consumes one draw per guaranteed
    class, one per filler character ([max 0 (len - guaranteed)] of them)
    and, on the success path, one per shuffle step over a list of [len]
    elements: at most [2 * len + 4] draws in all. *)
Theorem generate_password_total len strength r :
  ∃ s,
    generate_password len strength r
      = (Returns s,
         advance (guaranteed_draws strength + filler_draws len strength +
                  shuffle_draws len strength) r) ∧
    filler_draws len strength
      = Z.to_nat (Z.max 0 (len - Z.of_nat (guaranteed_draws strength))) ∧
    shuffle_draws len strength ≤ Z.to_nat len ∧
    guaranteed_draws strength + filler_draws len strength +
      shuffle_draws len strength ≤ 2 * Z.to_nat len + 4.
Proof.
  assert (Hng : guaranteed_draws strength ≤ 4).
  { unfold guaranteed_draws, guaranteed_classes.
    destruct (String.eqb strength "low"), (String.eqb strength "medium"),
      (String.eqb strength "high"); simpl; lia. }
  unfold shuffle_draws, filler_draws in *.
  destruct (generate_password_cases len strength r)
    as [[Hlt Hy]|[Hle (s & Hy & _)]]; unfold yields, filler_draws in Hy.
  - exists error_message.
    destruct (Z.ltb_spec len (Z.of_nat (guaranteed_draws strength))); [|lia].
    rewrite Hy. replace (Z.to_nat (len - Z.of_nat (guaranteed_draws strength)))
      with 0 by lia.
    rewrite !Nat.add_0_r. repeat split; lia.
  - exists s.
    destruct (Z.ltb_spec len (Z.of_nat (guaranteed_draws strength))); [lia|].
    rewrite Hy. repeat split; lia.
Qed.

(** C10: a strength outside the three tiers is accepted and treated as the
    low tier: the universe is the ASCII letters, no class is guaranteed,
    and for every non-negative length the call never reports the
    length-too-short failure and returns exactly [len] letters. *)
Theorem generate_password_unknown_strength len strength r :
  ¬ is_tier strength →
  (0 ≤ len)%Z →
  generate_password len strength r = generate_password len "low" r ∧
  select_chars strength
    = mret (chars ascii_uppercase ++ chars ascii_lowercase, []) ∧
  universe strength = chars ascii_uppercase ++ chars ascii_lowercase ∧
  guaranteed_classes strength = [] ∧
  ∃ s, run (generate_password len strength) r = Returns s ∧
       s ≠ error_message ∧
       Z.of_nat (String.length s) = len ∧
       Forall (λ c, is_letter c = true) (chars s).
Proof.
  intros Hn Hpos.
  pose proof (select_chars_unknown strength Hn) as Hsel.
  pose proof (guaranteed_classes_unknown strength Hn) as Hg.
  pose proof (universe_unknown strength Hn) as Hu.
  split; [unfold generate_password; by rewrite Hsel|].
  split; [rewrite Hsel; reflexivity|].
  split; [rewrite Hu; reflexivity|].
  split; [done|].
  destruct (generate_password_ok len strength r)
    as (s & Hy & [Hlen Hall] & _ & Hne).
  { unfold guaranteed_draws. rewrite Hg. simpl. lia. }
  exists s. split; [by eapply yields_run|]. split; [done|]. split; [done|].
  eapply Forall_impl; [exact Hall|]. cbv beta. rewrite Hu.
  apply universe_low_letters.
Qed.

Lemma generate_password_unknown_strength_witness :
  ¬ is_tier "ultra" ∧ (0 ≤ 5)%Z ∧
  generate_password 5 "ultra" tape0 = generate_password 5 "low" tape0 ∧
  select_chars "ultra"
    = mret (chars ascii_uppercase ++ chars ascii_lowercase, []) ∧
  universe "ultra" = chars ascii_uppercase ++ chars ascii_lowercase ∧
  guaranteed_classes "ultra" = [] ∧
  ∃ s, run (generate_password 5 "ultra") tape0 = Returns s ∧
       s ≠ error_message ∧
       Z.of_nat (String.length s) = 5%Z ∧
       Forall (λ c, is_letter c = true) (chars s).
Proof.
  assert (H1 : ¬ is_tier "ultra")
    by (intros [H|[H|H]]; vm_compute in H; discriminate H).
  assert (H2 : (0 ≤ 5)%Z) by lia.
  split; [exact H1|]. split; [exact H2|].
  exact (generate_password_unknown_strength 5 "ultra" tape0 H1 H2).
Defined.

(** ** The event handler *)

Example click_default_form :
  (on_generate_button_click int_digits setup_ui_elements tape0).1
  = {| length_entry := "12"; strength_var := "high";
       generated_pass_entry :=
         {| entry_text := "7f7m%,0=Dkt]"; entry_state := readonly |};
       dialogs := [] |}.
Proof. vm_compute. reflexivity. Qed.

Lemma append_empty_r s : s +:+ EmptyString = s.
Proof.
  induction s as [|c s IH]; [done|].
  change (String c s +:+ EmptyString) with (String c (s +:+ EmptyString)).
  by rewrite IH.
Qed.

Lemma guaranteed_draws_le_4 strength : guaranteed_draws strength ≤ 4.
Proof.
  unfold guaranteed_draws, guaranteed_classes.
  destruct (String.eqb strength "low"), (String.eqb strength "medium"),
    (String.eqb strength "high"); simpl; lia.
Qed.

(** The accepted path of the handler, for the generator's two outcomes. *)
Lemma click_accepted int f r len :
  int (length_entry f) = Some len →
  (MIN_PASS_LENGTH ≤ len ≤ MAX_PASS_LENGTH)%Z →
  ∃ s,
    on_generate_button_click int f r
      = ({| length_entry := length_entry f;
            strength_var := strength_var f;
            generated_pass_entry :=
              {| entry_text := s; entry_state := readonly |};
            dialogs := dialogs f |},
         advance (2 * Z.to_nat len - 1) r) ∧
    is_password len (strength_var f) s ∧
    (∀ cls, cls ∈ guaranteed_classes (strength_var f) → has_class cls s) ∧
    s ≠ error_message.
Proof.
  intros Hint [Hmin Hmax]. unfold MIN_PASS_LENGTH, MAX_PASS_LENGTH in *.
  pose proof (guaranteed_draws_le_4 (strength_var f)) as Hng.
  destruct (generate_password_ok len (strength_var f) r)
    as (s & Hy & Hpw & Hcls & Hne); [lia|].
  exists s. split; [|done].
  unfold on_generate_button_click. rewrite Hint.
  unfold MIN_PASS_LENGTH, MAX_PASS_LENGTH.
  destruct (Z.leb_spec 4 len); [|lia].
  destruct (Z.leb_spec len 80); [|lia].
  cbn [andb negb]. unfold yields in Hy. rewrite Hy.
  unfold with_output, insert_0, delete_all, config; cbn.
  rewrite append_empty_r. do 2 f_equal.
  unfold filler_draws. lia.
Qed.

(** X1: a click on a length of the accepted range always puts a password for
    that length and the selected strength into the read-only output field:
    with 4 as the smallest accepted length the length-too-short message of
    the generator cannot appear.  Fields and message boxes are untouched
    and the random source is advanced by [2 * len - 1] draws. *)
Theorem click_in_range int f r len :
  int (length_entry f) = Some len →
  (MIN_PASS_LENGTH ≤ len ≤ MAX_PASS_LENGTH)%Z →
  ∃ s,
    on_generate_button_click int f r
      = ({| length_entry := length_entry f;
            strength_var := strength_var f;
            generated_pass_entry :=
              {| entry_text := s; entry_state := readonly |};
            dialogs := dialogs f |},
         advance (2 * Z.to_nat len - 1) r) ∧
    is_password len (strength_var f) s ∧
    (∀ cls, cls ∈ guaranteed_classes (strength_var f) → has_class cls s) ∧
    s ≠ error_message.
Proof. apply click_accepted. Qed.

Lemma click_in_range_witness :
  int_digits (length_entry setup_ui_elements) = Some 12%Z ∧
  (MIN_PASS_LENGTH ≤ 12 ≤ MAX_PASS_LENGTH)%Z ∧
  ∃ s,
    on_generate_button_click int_digits setup_ui_elements tape0
      = ({| length_entry := length_entry setup_ui_elements;
            strength_var := strength_var setup_ui_elements;
            generated_pass_entry :=
              {| entry_text := s; entry_state := readonly |};
            dialogs := dialogs setup_ui_elements |},
         advance (2 * Z.to_nat 12 - 1) tape0) ∧
    is_password 12 (strength_var setup_ui_elements) s ∧
    (∀ cls, cls ∈ guaranteed_classes (strength_var setup_ui_elements) →
            has_class cls s) ∧
    s ≠ error_message.
Proof.
  assert (H1 : int_digits (length_entry setup_ui_elements) = Some 12%Z)
    by (vm_compute; reflexivity).
  assert (H2 : (MIN_PASS_LENGTH ≤ 12 ≤ MAX_PASS_LENGTH)%Z)
    by (unfold MIN_PASS_LENGTH, MAX_PASS_LENGTH; lia).
  split; [exact H1|]. split; [exact H2|].
  exact (click_in_range int_digits setup_ui_elements tape0 12 H1 H2).
Defined.

(** X2: a click on a text that is not a number, or on a number outside 4..80,
    shows one warning with the matching message and changes nothing else:
    the fields, the displayed password and the random source stay as they
    were. *)
Theorem click_rejected int f r :
  (int (length_entry f) = None →
   on_generate_button_click int f r
   = (show (showwarning "Input Error"
              "Please enter a valid number for password length.") f, r)) ∧
  (∀ len, int (length_entry f) = Some len →
          (len < 4 ∨ 80 < len)%Z →
          on_generate_button_click int f r
          = (show (showwarning "Input Error"
                     "Password length must be between 4 and 80.") f, r)).
Proof.
  split.
  - intros Hint. unfold on_generate_button_click. by rewrite Hint.
  - intros len Hint Hout. unfold on_generate_button_click. rewrite Hint.
    unfold MIN_PASS_LENGTH, MAX_PASS_LENGTH.
    destruct (Z.leb_spec 4 len), (Z.leb_spec len 80); try lia; reflexivity.
Qed.

(** Every click either is rejected with a warning or displays a password. *)
Lemma click_cases int f r :
  (∃ m, on_generate_button_click int f r
        = (show (showwarning "Input Error" m) f, r)) ∨
  (∃ len s,
     (MIN_PASS_LENGTH ≤ len ≤ MAX_PASS_LENGTH)%Z ∧
     on_generate_button_click int f r
       = ({| length_entry := length_entry f;
             strength_var := strength_var f;
             generated_pass_entry :=
               {| entry_text := s; entry_state := readonly |};
             dialogs := dialogs f |},
          advance (2 * Z.to_nat len - 1) r) ∧
     is_password len (strength_var f) s ∧
     (∀ cls, cls ∈ guaranteed_classes (strength_var f) → has_class cls s) ∧
     s ≠ error_message).
Proof.
  destruct (int (length_entry f)) as [len|] eqn:Hint.
  - destruct (decide (MIN_PASS_LENGTH ≤ len ≤ MAX_PASS_LENGTH)%Z) as [Hin|Hout].
    + right. destruct (click_accepted int f r len Hint Hin) as (s & Hs).
      by exists len, s.
    + left. eexists. unfold on_generate_button_click. rewrite Hint.
      unfold MIN_PASS_LENGTH, MAX_PASS_LENGTH in *.
      destruct (Z.leb_spec 4 len), (Z.leb_spec len 80); try lia; reflexivity.
  - left. eexists. unfold on_generate_button_click. by rewrite Hint.
Qed.

(** X3: the handler never reaches its error box: whatever the field holds and
    whatever strength is selected, a click shows at most one warning, and it
    never changes the length field or the selected strength. *)
Theorem click_no_error_dialog int f r :
  length_entry (on_generate_button_click int f r).1 = length_entry f ∧
  strength_var (on_generate_button_click int f r).1 = strength_var f ∧
  (dialogs (on_generate_button_click int f r).1 = dialogs f ∨
   ∃ m, dialogs (on_generate_button_click int f r).1
        = dialogs f ++ [showwarning "Input Error" m]).
Proof.
  destruct (click_cases int f r) as [[m ->]|(len & s & _ & -> & _)]; cbn.
  - split; [done|]. split; [done|]. right. by exists m.
  - split; [done|]. split; [done|]. by left.
Qed.

(** X4: the output field after a click: still read-only if it was, and never
    showing the generator's length-too-short message unless it already
    did. *)
Theorem click_output_field int f r :
  (entry_state (generated_pass_entry f) = readonly →
   entry_state (generated_pass_entry (on_generate_button_click int f r).1)
   = readonly) ∧
  (entry_text (generated_pass_entry f) ≠ error_message →
   entry_text (generated_pass_entry (on_generate_button_click int f r).1)
   ≠ error_message).
Proof.
  destruct (click_cases int f r) as [[m ->]|(len & s & _ & -> & _ & _ & Hne)];
    cbn; done.
Qed.

Lemma handle_form_ok int ev w : form_ok w.1 → form_ok (handle int ev w).1.
Proof.
  destruct w as [f r]. intros (Htier & Hro & Htext & Hdlg).
  destruct ev as [text|b|]; cbn [handle fst snd].
  - done.
  - split; [|done]. destruct b; unfold is_tier; cbn; auto.
  - destruct (click_cases int f r)
      as [[m ->]|(len & s & Hin & -> & Hpw & Hcls & _)]; cbn [fst].
    + split; [done|]. split; [done|]. split; [done|].
      cbn. apply Forall_app. split; [done|]. by repeat constructor.
    + split; [done|]. split; [done|]. split; [|done].
      right. by exists len, (strength_var f).
Qed.

(** X5: whatever the user types, selects and clicks, starting from the fresh
    form: the selected strength is one of the three tiers, the output field
    is read-only and is empty or holds a password for an accepted length
    and a tier, with every guaranteed class present, and every message box
    shown is a warning. *)
Theorem session_form_ok int evs r : form_ok (session int evs r).1.
Proof.
  unfold session.
  assert (H0 : form_ok (setup_ui_elements, r).1).
  { split; [right; right; reflexivity|]. split; [done|].
    split; [by left | constructor]. }
  revert H0. generalize (setup_ui_elements, r).
  induction evs as [|ev evs IH]; intros w Hw; [done|].
  cbn [foldl]. apply IH. by apply handle_form_ok.
Qed.

Example session_example :
  (session int_digits
     [Clicked; Typed "3"; Clicked; Selected Low; Typed "x"; Clicked;
      Typed "6"; Clicked] tape0).1
  = {| length_entry := "6"; strength_var := "low";
       generated_pass_entry :=
         {| entry_text := "PkrIdW"; entry_state := readonly |};
       dialogs :=
         [showwarning "Input Error" "Password length must be between 4 and 80.";
          showwarning "Input Error"
            "Please enter a valid number for password length."] |}.
Proof. vm_compute. reflexivity. Qed.

(** ** Prescribing the draws *)

Lemma agrees_tape_of ds : agrees (tape_of ds) ds.
Proof. intros i d Hd. cbn. by rewrite Hd. Qed.

Lemma agrees_app r ds1 ds2 :
  agrees r (ds1 ++ ds2) →
  agrees r ds1 ∧ agrees (advance (length ds1) r) ds2.
Proof.
  intros H. split.
  - intros i d Hd. apply H. by apply lookup_app_l_Some.
  - intros i d Hd. cbn. rewrite <- Nat.add_assoc. apply H.
    rewrite lookup_app_r by lia.
    by replace (length ds1 + i - length ds1) with i by lia.
Qed.

Lemma reads_ret {A} (a : A) : reads (mret a) [] a.
Proof. intros r _. apply yields_ret. Qed.

Lemma reads_bind {A B} (m : M A) (f : A → M B) ds1 ds2 a b :
  reads m ds1 a → reads (f a) ds2 b → reads (m ≫= f) (ds1 ++ ds2) b.
Proof.
  intros Hm Hf r [H1 H2]%agrees_app. rewrite length_app.
  eapply yields_bind; [by apply Hm | by apply Hf].
Qed.

Lemma reads_randbelow n d : d < n → reads (randbelow n) [d] d.
Proof.
  intros Hd r Hr. unfold yields, randbelow. cbn.
  specialize (Hr 0 d eq_refl). rewrite Nat.add_0_r in Hr.
  by rewrite Hr, Nat.mod_small.
Qed.

Lemma reads_choice seq d c : seq !! d = Some c → reads (choice seq) [d] c.
Proof.
  intros Hc. pose proof (lookup_lt_Some _ _ _ Hc) as Hlt.
  unfold choice. destruct (decide (length seq = 0)); [lia|].
  change [d] with ([d] ++ []).
  eapply reads_bind; [by apply reads_randbelow|].
  rewrite Hc. apply reads_ret.
Qed.

Lemma reads_choices all_chars cs :
  Forall (λ c, c ∈ all_chars) cs →
  ∃ ds, reads (choices (length cs) all_chars) ds cs.
Proof.
  induction 1 as [|c cs Hc _ (ds & IH)].
  { exists []. apply reads_ret. }
  apply list_elem_of_lookup in Hc as [d Hd].
  exists ([d] ++ ds ++ []). cbn [length choices].
  eapply reads_bind; [by apply reads_choice|].
  eapply reads_bind; [exact IH|]. apply reads_ret.
Qed.

Lemma reads_swap x i j xi xj :
  x !! i = Some xi → x !! j = Some xj →
  reads (swap x i j) [] (<[j := xi]> (<[i := xj]> x)).
Proof. intros Hi Hj. unfold swap. rewrite Hi, Hj. apply reads_ret. Qed.

(** The loop of the shuffle reaches every arrangement of the part of the
    list it works on, leaving the rest in place. *)
Lemma reads_shuffle_loop i p t p' :
  length p = S i → p' ≡ₚ p →
  ∃ ds, reads (shuffle_loop i (p ++ t)) ds (p' ++ t).
Proof.
  revert p t p'. induction i as [|i IH]; intros p t p' Hlen Hperm.
  { destruct p as [|a [|??]]; try done.
    apply Permutation_singleton_r in Hperm as ->.
    exists []. apply reads_ret. }
  induction p' as [|z q' _] using rev_ind.
  { apply Permutation_nil_l in Hperm. by subst. }
  assert (Hz : z ∈ p) by (rewrite <- Hperm; set_solver).
  apply list_elem_of_lookup in Hz as [j Hj].
  pose proof (lookup_lt_Some _ _ _ Hj) as Hjlt.
  destruct (lookup_lt_is_Some_2 p (S i)) as [y Hy]; [lia|].
  set (p1 := <[j := y]> (<[S i := z]> p)).
  assert (Hp1 : p1 ≡ₚ p) by (by apply Permutation_insert_swap).
  assert (Hlen1 : length p1 = S (S i)).
  { by rewrite (Permutation_length Hp1). }
  assert (Hlast : p1 !! S i = Some z).
  { unfold p1. destruct (decide (j = S i)) as [->|Hne].
    - rewrite list_lookup_insert_eq by (rewrite length_insert; lia).
      congruence.
    - rewrite list_lookup_insert_ne by done.
      apply list_lookup_insert_eq. lia. }
  assert (Hsplit : p1 = take (S i) p1 ++ [z]).
  { rewrite <- (take_S_r _ _ _ Hlast). symmetry. apply take_ge. lia. }
  destruct (IH (take (S i) p1) (z :: t) q') as (ds & Hds).
  { rewrite length_take. lia. }
  { apply (inj (λ l, l ++ [z])). by rewrite <- Hsplit, Hp1. }
  exists ([j] ++ [] ++ ds). cbn [shuffle_loop].
  eapply reads_bind; [apply reads_randbelow; lia|].
  eapply reads_bind.
  { apply reads_swap; rewrite lookup_app_l by lia; eassumption. }
  rewrite !insert_app_l by (rewrite ?length_insert; lia).
  fold p1. rewrite Hsplit, <- !(assoc_L (++)). exact Hds.
Qed.

Lemma reads_shuffle x x' : x' ≡ₚ x → ∃ ds, reads (shuffle x) ds x'.
Proof.
  intros Hperm. unfold shuffle. destruct x as [|a x].
  { apply Permutation_nil_r in Hperm as ->. exists []. apply reads_ret. }
  destruct (reads_shuffle_loop (length x) (a :: x) [] x') as (ds & Hds);
    [done|done|].
  exists ds. rewrite !app_nil_r in Hds.
  cbn [length]. by rewrite Nat.sub_1_r.
Qed.

Lemma reads_choice_of cls c :
  c ∈ alphabet cls → ∃ d, reads (choice_of (class_key cls)) [d] c.
Proof.
  intros [d Hd]%list_elem_of_lookup. exists d.
  unfold choice_of. rewrite getitem_class, bind_ret_l.
  by apply reads_choice.
Qed.

Lemma reads_select_chars strength g :
  Forall2 (λ c cls, c ∈ alphabet cls) g (guaranteed_classes strength) →
  ∃ ds, reads (select_chars strength) ds (universe strength, g).
Proof.
  unfold select_chars, guaranteed_classes, universe, universe_classes.
  rewrite getitem_uppercase, bind_ret_l; cbv beta.
  rewrite getitem_lowercase, bind_ret_l; cbv beta.
  destruct (String.eqb strength "low").
  { intros ->%Forall2_nil_inv_r. exists []. apply reads_ret. }
  destruct (String.eqb strength "medium").
  { intros Hg.
    apply Forall2_cons_inv_r in Hg as (c1 & g1 & H1 & Hg & ->).
    apply Forall2_cons_inv_r in Hg as (c2 & g2 & H2 & Hg & ->).
    apply Forall2_cons_inv_r in Hg as (c3 & g3 & H3 & Hg & ->).
    apply Forall2_nil_inv_r in Hg as ->.
    apply reads_choice_of in H1 as [d1 H1].
    apply reads_choice_of in H2 as [d2 H2].
    apply reads_choice_of in H3 as [d3 H3].
    rewrite getitem_digits, bind_ret_l; cbv beta.
    exists ([d1] ++ [d2] ++ [d3] ++ []).
    eapply reads_bind; [exact H1|].
    eapply reads_bind; [exact H2|].
    eapply reads_bind; [exact H3|].
    apply reads_ret. }
  destruct (String.eqb strength "high").
  { intros Hg.
    apply Forall2_cons_inv_r in Hg as (c1 & g1 & H1 & Hg & ->).
    apply Forall2_cons_inv_r in Hg as (c2 & g2 & H2 & Hg & ->).
    apply Forall2_cons_inv_r in Hg as (c3 & g3 & H3 & Hg & ->).
    apply Forall2_cons_inv_r in Hg as (c4 & g4 & H4 & Hg & ->).
    apply Forall2_nil_inv_r in Hg as ->.
    apply reads_choice_of in H1 as [d1 H1].
    apply reads_choice_of in H2 as [d2 H2].
    apply reads_choice_of in H3 as [d3 H3].
    apply reads_choice_of in H4 as [d4 H4].
    rewrite getitem_digits, bind_ret_l; cbv beta.
    rewrite getitem_special_chars, bind_ret_l; cbv beta.
    exists ([d1] ++ [d2] ++ [d3] ++ [d4] ++ []).
    eapply reads_bind; [exact H1|].
    eapply reads_bind; [exact H2|].
    eapply reads_bind; [exact H3|].
    eapply reads_bind; [exact H4|].
    apply reads_ret. }
  intros ->%Forall2_nil_inv_r. exists []. apply reads_ret.
Qed.

(** The classes have pairwise disjoint alphabets. *)
Lemma in_class_inj cls1 cls2 c :
  in_class cls1 c = true → in_class cls2 c = true → cls1 = cls2.
Proof.
  destruct c as [[] [] [] [] [] [] [] []], cls1, cls2;
    vm_compute; congruence.
Qed.

Lemma guaranteed_classes_NoDup strength : NoDup (guaranteed_classes strength).
Proof.
  unfold guaranteed_classes.
  destruct (String.eqb strength "low"), (String.eqb strength "medium"),
    (String.eqb strength "high");
    apply (bool_decide_unpack _); vm_compute; exact I.
Qed.

(** One character per class can be taken out of a list that has a
    character of each of the classes. *)
Lemma extract_classes (l : list ascii) (clss : list CharacterClass) :
  NoDup clss →
  (∀ cls, cls ∈ clss → ∃ c, c ∈ l ∧ c ∈ alphabet cls) →
  ∃ g rest, l ≡ₚ g ++ rest ∧
            Forall2 (λ c cls, c ∈ alphabet cls) g clss.
Proof.
  induction 1 as [|cls clss Hnotin Hnd IH]; intros Hhas.
  { exists [], l. by split. }
  destruct IH as (g & rest & Hperm & Hg).
  { intros cls' Hcls'. apply Hhas. by right. }
  destruct (Hhas cls) as (c & Hc & Hcls); [by left|].
  assert (Hrest : c ∈ rest).
  { rewrite Hperm in Hc. apply elem_of_app in Hc as [Hc|Hc]; [|done].
    exfalso. apply list_elem_of_lookup in Hc as [i Hi].
    destruct (Forall2_lookup_l _ _ _ _ _ Hg Hi) as (cls' & Hcls' & Hin).
    apply alphabet_in_class in Hcls, Hin.
    rewrite (in_class_inj _ _ _ Hcls Hin) in Hnotin.
    apply Hnotin. by eapply list_elem_of_lookup_2. }
  apply elem_of_Permutation in Hrest as [rest' Hrest'].
  exists (c :: g), rest'. split; [|by constructor].
  by rewrite Hperm, Hrest', <- Permutation_middle.
Qed.

(** Every string that meets the policy of a request is produced on some
    random source. *)
Lemma generate_password_reaches len strength s :
  is_password len strength s →
  (∀ cls, cls ∈ guaranteed_classes strength → has_class cls s) →
  ∃ ds, reads (generate_password len strength) ds s.
Proof.
  intros [Hlen Hall] Hhas.
  destruct (extract_classes (chars s) (guaranteed_classes strength))
    as (g & rest & Hperm & Hg);
    [apply guaranteed_classes_NoDup | exact Hhas |].
  pose proof (Forall2_length _ _ _ Hg) as Hglen.
  assert (Hrest : Forall (λ c, c ∈ universe strength) rest).
  { rewrite Hperm in Hall. by apply Forall_app in Hall as [_ ?]. }
  assert (Hslen : String.length s = length g + length rest).
  { by rewrite <- length_chars, Hperm, length_app. }
  destruct (reads_select_chars strength g Hg) as (ds1 & Hds1).
  destruct (reads_choices (universe strength) rest Hrest) as (ds2 & Hds2).
  destruct (reads_shuffle (g ++ rest) (chars s) Hperm) as (ds3 & Hds3).
  exists (ds1 ++ ds2 ++ ds3 ++ []). unfold generate_password.
  eapply reads_bind; [exact Hds1|]. cbv beta iota zeta.
  rewrite Z.gtb_ltb.
  destruct (Z.ltb_spec len (Z.of_nat (length g))); [lia|].
  destruct (Z.ltb_spec (len - Z.of_nat (length g)) 0); [lia|].
  replace (Z.to_nat (len - Z.of_nat (length g))) with (length rest) by lia.
  eapply reads_bind; [exact Hds2|].
  eapply reads_bind; [exact Hds3|].
  unfold chars, join. rewrite String.string_of_list_ascii_of_string.
  apply reads_ret.
Qed.

Lemma reads_run {A} (m : M A) ds a :
  reads m ds a → run m (tape_of ds) = Returns a.
Proof. intros H. eapply yields_run, H, agrees_tape_of. Qed.

(** X6: the strings [generate_password] can return for a request, over all
    random sources, are exactly: the length-too-short message when the
    length is below the number of guaranteed classes, and otherwise every
    string of the requested length over the universe of the strength that
    has a character of each guaranteed class.  No such password is ever
    excluded, and nothing else is ever returned. *)
Theorem generate_password_outputs len strength s :
  (∃ r, run (generate_password len strength) r = Returns s) ↔
  (s = error_message ∧
   (len < Z.of_nat (length (guaranteed_classes strength)))%Z) ∨
  (is_password len strength s ∧
   ∀ cls, cls ∈ guaranteed_classes strength → has_class cls s).
Proof.
  split.
  - intros [r Hrun].
    destruct (generate_password_cases len strength r)
      as [[Hlt Hy]|[_ (s' & Hy & Hpw & Hcls & _)]];
      apply yields_run in Hy; rewrite Hy in Hrun; simplify_eq.
    + by left.
    + by right.
  - intros [[-> Hlt]|[Hpw Hcls]].
    + exists tape0. eapply yields_run. by apply generate_password_short.
    + destruct (generate_password_reaches len strength s Hpw Hcls) as [ds Hds].
      exists (tape_of ds). by apply reads_run.
Qed.

(** X7: the shuffle returns exactly the rearrangements of its argument: every
    result is a permutation of the list, and every permutation of the list
    is the result on some random source. *)
Theorem shuffle_outputs x x' :
  (∃ r, run (shuffle x) r = Returns x') ↔ x' ≡ₚ x.
Proof.
  split.
  - intros [r Hrun]. destruct (shuffle_yields x r) as (x1 & Hy & Hperm).
    apply yields_run in Hy. rewrite Hy in Hrun. by simplify_eq.
  - intros Hperm. destruct (reads_shuffle x x' Hperm) as [ds Hds].
    exists (tape_of ds). by apply reads_run.
Qed.

Example reach_high_4 :
  run (generate_password 4 "high") (tape_of [25; 0; 7; 0; 0; 1; 2])
  = Returns "7!aZ".
Proof. vm_compute. reflexivity. Qed.

(** ** The draws a call depends on *)

Lemma reads_randbelow_mod n d : reads (randbelow n) [d] (d `mod` n).
Proof.
  intros r Hr. unfold yields, randbelow. cbn.
  specialize (Hr 0 d eq_refl). rewrite Nat.add_0_r in Hr. by rewrite Hr.
Qed.

Lemma reads_choice_any seq d :
  seq ≠ [] → ∃ c, reads (choice seq) [d] c ∧ c ∈ seq.
Proof.
  intros Hne.
  assert (Hlt : d `mod` length seq < length seq).
  { apply Nat.mod_upper_bound. by destruct seq. }
  destruct (lookup_lt_is_Some_2 _ _ Hlt) as [c Hc].
  exists c. split; [|by eapply list_elem_of_lookup_2].
  unfold choice. destruct (decide (length seq = 0)); [lia|].
  change [d] with ([d] ++ []).
  eapply reads_bind; [apply reads_randbelow_mod|].
  rewrite Hc. apply reads_ret.
Qed.

Lemma reads_choices_any all_chars ds :
  all_chars ≠ [] →
  ∃ cs, reads (choices (length ds) all_chars) ds cs ∧ length cs = length ds.
Proof.
  intros Hne. induction ds as [|d ds (cs & IH & Hlen)].
  { exists []. split; [apply reads_ret | done]. }
  destruct (reads_choice_any all_chars d Hne) as (c & Hc & _).
  exists (c :: cs). split; [|by cbn; rewrite Hlen]. cbn [length choices].
  replace (d :: ds) with ([d] ++ ds ++ []) by (by rewrite app_nil_r).
  eapply reads_bind; [exact Hc|].
  eapply reads_bind; [exact IH|]. apply reads_ret.
Qed.

Lemma reads_shuffle_loop_any x ds :
  length ds < length x ∨ ds = [] →
  ∃ x', reads (shuffle_loop (length ds) x) ds x'.
Proof.
  revert x. induction ds as [|d ds IH]; intros x Hlen.
  { exists x. apply reads_ret. }
  destruct Hlen as [Hlen|?]; [|done]. cbn [length] in Hlen.
  set (i := length ds) in *.
  assert (Hj : d `mod` (S i + 1) < length x).
  { pose proof (Nat.mod_upper_bound d (S i + 1)). lia. }
  destruct (lookup_lt_is_Some_2 x (S i)) as [xi Hxi]; [lia|].
  destruct (lookup_lt_is_Some_2 x _ Hj) as [xj Hxj].
  destruct (IH (<[d `mod` (S i + 1) := xi]> (<[S i := xj]> x))) as (x' & Hx').
  { left. rewrite !length_insert. fold i. lia. }
  exists x'. cbn [length shuffle_loop]. fold i.
  change (d :: ds) with ([d] ++ [] ++ ds).
  eapply reads_bind; [apply reads_randbelow_mod|].
  eapply reads_bind; [by apply reads_swap|]. exact Hx'.
Qed.

Lemma reads_choice_of_any cls d :
  ∃ c, reads (choice_of (class_key cls)) [d] c.
Proof.
  destruct (reads_choice_any (alphabet cls) d (alphabet_nonempty cls))
    as (c & Hc & _).
  exists c. unfold choice_of. by rewrite getitem_class, bind_ret_l.
Qed.

Lemma reads_select_chars_any strength ds :
  length ds = guaranteed_draws strength →
  ∃ g, reads (select_chars strength) ds (universe strength, g) ∧
       length g = guaranteed_draws strength.
Proof.
  unfold select_chars, guaranteed_draws, guaranteed_classes, universe,
    universe_classes.
  rewrite getitem_uppercase, bind_ret_l; cbv beta.
  rewrite getitem_lowercase, bind_ret_l; cbv beta.
  destruct (String.eqb strength "low").
  { intros ->%nil_length_inv. exists []. split; [apply reads_ret | done]. }
  destruct (String.eqb strength "medium").
  { destruct ds as [|d1 [|d2 [|d3 [|??]]]]; try done. intros _.
    destruct (reads_choice_of_any Uppercase d1) as [c1 H1].
    destruct (reads_choice_of_any Lowercase d2) as [c2 H2].
    destruct (reads_choice_of_any Digit d3) as [c3 H3].
    rewrite getitem_digits, bind_ret_l; cbv beta.
    exists [c1; c2; c3]. split; [|done].
    change [d1; d2; d3] with ([d1] ++ [d2] ++ [d3] ++ []).
    eapply reads_bind; [exact H1|].
    eapply reads_bind; [exact H2|].
    eapply reads_bind; [exact H3|].
    apply reads_ret. }
  destruct (String.eqb strength "high").
  { destruct ds as [|d1 [|d2 [|d3 [|d4 [|??]]]]]; try done. intros _.
    destruct (reads_choice_of_any Uppercase d1) as [c1 H1].
    destruct (reads_choice_of_any Lowercase d2) as [c2 H2].
    destruct (reads_choice_of_any Digit d3) as [c3 H3].
    destruct (reads_choice_of_any Special d4) as [c4 H4].
    rewrite getitem_digits, bind_ret_l; cbv beta.
    rewrite getitem_special_chars, bind_ret_l; cbv beta.
    exists [c1; c2; c3; c4]. split; [|done].
    change [d1; d2; d3; d4] with ([d1] ++ [d2] ++ [d3] ++ [d4] ++ []).
    eapply reads_bind; [exact H1|].
    eapply reads_bind; [exact H2|].
    eapply reads_bind; [exact H3|].
    eapply reads_bind; [exact H4|].
    apply reads_ret. }
  intros ->%nil_length_inv. exists []. split; [apply reads_ret | done].
Qed.

Lemma reads_generate_password_any len strength ds :
  length ds = guaranteed_draws strength + filler_draws len strength +
              shuffle_draws len strength →
  ∃ s, reads (generate_password len strength) ds s.
Proof.
  intros Hlen. set (ng := guaranteed_draws strength) in *.
  rewrite <- (take_drop ng ds) in *.
  set (ds1 := take ng ds) in *. set (ds' := drop ng ds) in *.
  assert (Hds1 : length ds1 = ng).
  { unfold ds1. rewrite length_take. rewrite length_app in Hlen.
    unfold ds1, ds' in Hlen. rewrite length_take, length_drop in Hlen. lia. }
  rewrite length_app, Hds1 in Hlen.
  destruct (reads_select_chars_any strength ds1 Hds1) as (g & Hsel & Hg).
  fold ng in Hg. unfold shuffle_draws, filler_draws in Hlen. fold ng in Hlen.
  unfold generate_password.
  destruct (Z.ltb_spec len (Z.of_nat ng)) as [Hlt|Hge].
  - exists error_message. assert (ds' = []) as -> by (apply nil_length_inv; lia).
    eapply reads_bind; [exact Hsel|]. cbv beta iota.
    rewrite Hg, Z.gtb_ltb.
    destruct (Z.ltb_spec len (Z.of_nat ng)); [|lia]. apply reads_ret.
  - set (nf := Z.to_nat (len - Z.of_nat ng)) in *.
    rewrite <- (take_drop nf ds') in *.
    set (ds2 := take nf ds') in *. set (ds3 := drop nf ds') in *.
    assert (Hds2 : length ds2 = nf).
    { unfold ds2. rewrite length_take. rewrite length_app in Hlen.
      unfold ds2, ds3 in Hlen. rewrite length_take, length_drop in Hlen. lia. }
    rewrite length_app, Hds2 in Hlen.
    destruct (reads_choices_any (universe strength) ds2
                (universe_nonempty strength)) as (cs & Hcs & Hcslen).
    destruct (reads_shuffle_loop_any (g ++ cs) ds3) as (x' & Hx').
    { rewrite length_app, Hg, Hcslen, Hds2.
      destruct ds3; [by right | left; cbn in *; lia]. }
    exists (join x'). replace ds3 with (ds3 ++ []) by apply app_nil_r.
    eapply reads_bind; [exact Hsel|]. cbv beta iota zeta.
    rewrite Hg, Z.gtb_ltb.
    destruct (Z.ltb_spec len (Z.of_nat ng)); [lia|].
    destruct (Z.ltb_spec (len - Z.of_nat ng) 0); [lia|].
    fold nf. rewrite <- Hds2.
    eapply reads_bind; [exact Hcs|].
    eapply reads_bind; [|apply reads_ret].
    unfold shuffle.
    replace (length (g ++ cs) - 1) with (length ds3); [exact Hx'|].
    rewrite length_app, Hg, Hcslen, Hds2. lia.
Qed.

(** X8: a call reads only the draws it consumes: two random sources that
    agree on the next draws, as many as the call consumes, give the same
    result.  A source replaying recorded draws therefore reproduces the
    password. *)
Theorem generate_password_same_draws len strength r1 r2 :
  (∀ i, i < guaranteed_draws strength + filler_draws len strength +
             shuffle_draws len strength →
        tape r1 (pos r1 + i) = tape r2 (pos r2 + i)) →
  run (generate_password len strength) r1
  = run (generate_password len strength) r2.
Proof.
  set (k := guaranteed_draws strength + filler_draws len strength +
            shuffle_draws len strength).
  intros Hagree.
  set (ds := (λ i, tape r1 (pos r1 + i)) <$> seq 0 k).
  assert (Hlen : length ds = k) by (unfold ds; by rewrite length_fmap, length_seq).
  assert (H1 : agrees r1 ds).
  { intros i d Hd. unfold ds in Hd. rewrite list_lookup_fmap in Hd.
    destruct (seq 0 k !! i) as [i'|] eqn:Hi; [|done].
    apply lookup_seq in Hi as [-> _]. by simplify_eq/=. }
  assert (H2 : agrees r2 ds).
  { intros i d Hd. unfold ds in Hd. rewrite list_lookup_fmap in Hd.
    destruct (seq 0 k !! i) as [i'|] eqn:Hi; [|done].
    apply lookup_seq in Hi as [-> Hlt]. simplify_eq/=.
    symmetry. by apply Hagree. }
  destruct (reads_generate_password_any len strength ds Hlen) as [s Hs].
  by rewrite (yields_run _ _ _ _ (Hs r1 H1)), (yields_run _ _ _ _ (Hs r2 H2)).
Qed.

Lemma generate_password_same_draws_witness :
  (∀ i, i < guaranteed_draws "medium" + filler_draws 12 "medium" +
             shuffle_draws 12 "medium" →
        tape tape0 (pos tape0 + i)
        = tape {| tape := λ k, if k <? 30 then 7 * k + 3 else 0; pos := 0 |}
            (0 + i)) ∧
  run (generate_password 12 "medium") tape0
  = run (generate_password 12 "medium")
      {| tape := λ k, if k <? 30 then 7 * k + 3 else 0; pos := 0 |}.
Proof.
  assert (H : ∀ i, i < guaranteed_draws "medium" + filler_draws 12 "medium" +
                       shuffle_draws 12 "medium" →
              tape tape0 (pos tape0 + i)
              = tape {| tape := λ k, if k <? 30 then 7 * k + 3 else 0;
                        pos := 0 |} (0 + i)).
  { intros i Hi. change (i < 23) in Hi.
    change (7 * i + 3 = if i <? 30 then 7 * i + 3 else 0).
    destruct (Nat.ltb_spec i 30); [reflexivity | lia]. }
  split; [exact H|].
  exact (generate_password_same_draws 12 "medium" tape0 _ H).
Defined.

(** ** The make-up of a password *)


